(** * Monte Carlo European option pricer: a shallow embedding in Rocq

    Sources embedded: src/rng.c (rng_seed, xorshift32, random_double,
    normal_random), src/gbm.c (simulate_gbm), src/option.c (call_payoff,
    put_payoff), src/normal.c (normal_cdf) and src/monte_carlo.c
    (price_european_call_mc, price_european_call_bs).

    Numbers.  A C [double] is modelled by [xreal]: a finite real number or
    one of the IEEE 754 special values +inf, -inf and NaN.  Arithmetic on
    finite values is exact (no rounding) and the special values follow the
    IEEE 754 / C99 Annex F rules (x/0 is +-inf or NaN, inf - inf is NaN,
    log 0 is -inf, erf(+-inf) = +-1, comparisons with NaN are false, ...).
    There is a single, positive, zero.  The 32-bit generator state is a [Z]
    in [0, 2^32) with the wrap-around of [uint32_t] written out. *)

From Stdlib Require Import ZArith Reals Lra Lia List.
From Stdlib Require Import ClassicalEpsilon.
Import ListNotations.

Open Scope R_scope.

(** ** IEEE-style doubles over the reals *)

Inductive xreal : Type :=
| Fin : R -> xreal
| PInf : xreal
| NInf : xreal
| NaN : xreal.

Definition xneg (a : xreal) : xreal :=
  match a with
  | Fin x => Fin (- x)
  | PInf => NInf
  | NInf => PInf
  | NaN => NaN
  end.

Definition xadd (a b : xreal) : xreal :=
  match a, b with
  | NaN, _ | _, NaN => NaN
  | Fin x, Fin y => Fin (x + y)
  | PInf, NInf | NInf, PInf => NaN
  | PInf, _ | _, PInf => PInf
  | NInf, _ | _, NInf => NInf
  end.

Definition xsub (a b : xreal) : xreal := xadd a (xneg b).

(** Sign of a finite operand multiplying an infinity. *)
Definition inf_of_sign (x : R) (pos : bool) : xreal :=
  if Req_dec_T x 0 then NaN
  else if Rlt_dec 0 x then (if pos then PInf else NInf)
  else (if pos then NInf else PInf).

Definition xmul (a b : xreal) : xreal :=
  match a, b with
  | NaN, _ | _, NaN => NaN
  | Fin x, Fin y => Fin (x * y)
  | Fin x, PInf | PInf, Fin x => inf_of_sign x true
  | Fin x, NInf | NInf, Fin x => inf_of_sign x false
  | PInf, PInf | NInf, NInf => PInf
  | PInf, NInf | NInf, PInf => NInf
  end.

Definition xdiv (a b : xreal) : xreal :=
  match a, b with
  | NaN, _ | _, NaN => NaN
  | Fin x, Fin y =>
      if Req_dec_T y 0 then inf_of_sign x true else Fin (x / y)
  | Fin _, PInf | Fin _, NInf => Fin 0
  | PInf, Fin y =>
      if Req_dec_T y 0 then PInf else inf_of_sign y true
  | NInf, Fin y =>
      if Req_dec_T y 0 then NInf else inf_of_sign y false
  | _, _ => NaN
  end.

(** C's [a > b]: false as soon as one operand is NaN. *)
Definition xgt (a b : xreal) : bool :=
  match a, b with
  | NaN, _ | _, NaN => false
  | Fin x, Fin y => if Rlt_dec y x then true else false
  | PInf, PInf | NInf, NInf => false
  | PInf, _ => true
  | _, NInf => true
  | _, _ => false
  end.

(** The libm functions the code calls. *)
Definition xexp (a : xreal) : xreal :=
  match a with
  | Fin x => Fin (exp x)
  | PInf => PInf
  | NInf => Fin 0
  | NaN => NaN
  end.

Definition xlog (a : xreal) : xreal :=
  match a with
  | Fin x =>
      if Rlt_dec 0 x then Fin (ln x)
      else if Req_dec_T x 0 then NInf else NaN
  | PInf => PInf
  | _ => NaN
  end.

Definition xsqrt (a : xreal) : xreal :=
  match a with
  | Fin x => if Rlt_dec x 0 then NaN else Fin (sqrt x)
  | PInf => PInf
  | _ => NaN
  end.

Definition xcos (a : xreal) : xreal :=
  match a with
  | Fin x => Fin (cos x)
  | _ => NaN
  end.

(** The error function on the reals, as the limit of its Maclaurin series
    erf x = 2/sqrt(pi) * sum_n (-1)^n x^(2n+1) / (n! (2n+1)). *)
Definition erf_partial (x : R) (N : nat) : R :=
  sum_f_R0 (fun n => (-1) ^ n / (INR (fact n) * INR (2 * n + 1)) * x ^ (2 * n + 1)) N.

Definition erf (x : R) : R :=
  2 / sqrt PI * epsilon (inhabits 0) (fun l => Un_cv (erf_partial x) l).

Definition xerf (a : xreal) : xreal :=
  match a with
  | Fin x => Fin (erf x)
  | PInf => Fin 1
  | NInf => Fin (-1)
  | NaN => NaN
  end.

(** [M_PI] *)
Definition M_PI : R := PI.

(** ** The generator state monad (the static [rng_state] of rng.c) *)

Definition rng (A : Type) : Type := Z -> A * Z.

Definition ret {A : Type} (a : A) : rng A := fun s => (a, s).

Definition bind {A B : Type} (m : rng A) (k : A -> rng B) : rng B :=
  fun s => let (a, s') := m s in k a s'.

Notation "x <- m ;; k" := (bind m (fun x => k))
  (at level 61, m at next level, right associativity).

Definition UINT32_MAX : Z := 4294967295%Z.

(** Truncation of an unsigned 32-bit result. *)
Definition wrap32 (z : Z) : Z := Z.modulo z (2 ^ 32).

(** [void rng_seed(uint32_t seed)] *)
Definition rng_seed (seed : Z) : rng unit :=
  fun _ => (tt, if Z.eqb seed 0 then 1%Z else seed).

(** The three xor-shift steps of [xorshift32] on the evolving value. *)
Definition xorshift32_next (x : Z) : Z :=
  let x := Z.lxor x (wrap32 (Z.shiftl x 13)) in
  let x := Z.lxor x (Z.shiftr x 17) in
  let x := Z.lxor x (wrap32 (Z.shiftl x 5)) in
  x.

(** [static inline uint32_t xorshift32(uint32_t *state)] *)
Definition xorshift32 : rng Z :=
  fun state => let x := xorshift32_next state in (x, x).

(** [double random_double()] *)
Definition random_double : rng xreal :=
  x <- xorshift32 ;;
  ret (xdiv (Fin (IZR x)) (Fin (IZR UINT32_MAX))).

(** The Box-Muller expression of [normal_random], on its two draws. *)
Definition box_muller (u1 u2 : xreal) : xreal :=
  xmul (xsqrt (xmul (Fin (-2)) (xlog u1)))
       (xcos (xmul (xmul (Fin 2) (Fin M_PI)) u2)).

(** [double normal_random(void)] *)
Definition normal_random : rng xreal :=
  u1 <- random_double ;;
  u2 <- random_double ;;
  ret (box_muller u1 u2).

(** ** gbm.c, option.c, normal.c, monte_carlo.c *)

(** [double simulate_gbm(double S0, double r, double sigma, double T)] *)
Definition simulate_gbm (S0 r sigma T : xreal) : rng xreal :=
  Z <- normal_random ;;
  ret (xmul S0
        (xexp (xadd (xmul (xsub r (xmul (xmul (Fin (1/2)) sigma) sigma)) T)
                    (xmul (xmul sigma (xsqrt T)) Z)))).

(** [double call_payoff(double S, double K)] *)
Definition call_payoff (S K : xreal) : xreal :=
  if xgt S K then xsub S K else Fin 0.

(** [double put_payoff(double S, double K)] *)
Definition put_payoff (S K : xreal) : xreal :=
  if xgt K S then xsub K S else Fin 0.

(** [double normal_cdf(double x)] *)
Definition normal_cdf (x : xreal) : xreal :=
  xmul (Fin (1/2)) (xadd (Fin 1) (xerf (xdiv x (xsqrt (Fin 2))))).

(** The loop of [price_european_call_mc]: [i] iterations still to run,
    accumulating into [payoff_sum]. *)
Fixpoint mc_loop (S0 K r sigma T : xreal) (i : nat) (payoff_sum : xreal)
  : rng xreal :=
  match i with
  | O => ret payoff_sum
  | S i' =>
      ST <- simulate_gbm S0 r sigma T ;;
      let payoff := call_payoff ST K in
      mc_loop S0 K r sigma T i' (xadd payoff_sum payoff)
  end.

(** [double price_european_call_mc(..., uint32_t n_sim)] *)
Definition price_european_call_mc (S0 K r sigma T : xreal) (n_sim : Z)
  : rng xreal :=
  payoff_sum <- mc_loop S0 K r sigma T (Z.to_nat n_sim) (Fin 0) ;;
  let avg_payoff := xdiv payoff_sum (Fin (IZR n_sim)) in
  let discounted_price := xmul avg_payoff (xexp (xmul (xneg r) T)) in
  ret discounted_price.

(** [double price_european_call_bs(double S0, double K, double r,
    double sigma, double T)] *)
Definition price_european_call_bs (S0 K r sigma T : xreal) : xreal :=
  let sqrt_T := xsqrt T in
  let d1 := xdiv (xadd (xlog (xdiv S0 K))
                       (xmul (xadd r (xmul (xmul (Fin (1/2)) sigma) sigma)) T))
                 (xmul sigma sqrt_T) in
  let d2 := xsub d1 (xmul sigma sqrt_T) in
  xsub (xmul S0 (normal_cdf d1))
       (xmul (xmul K (xexp (xmul (xneg r) T))) (normal_cdf d2)).

(** ** Reachable generator states *)

(** The states the program can put into [rng_state]: one established by
    [rng_seed] on a [uint32_t] seed, and any later state of the stream. *)
Inductive seeded : Z -> Prop :=
| seeded_seed (seed : Z) :
    (0 <= seed < 2 ^ 32)%Z -> seeded (snd (rng_seed seed 0%Z))
| seeded_step (s : Z) : seeded s -> seeded (snd (xorshift32 s)).

(** [n] successive uniform draws. *)
Fixpoint uniforms (n : nat) : rng (list xreal) :=
  match n with
  | O => ret []
  | S n' => u <- random_double ;; us <- uniforms n' ;; ret (u :: us)
  end.

(** [n] successive terminal prices from [simulate_gbm]. *)
Fixpoint gbm_draws (S0 r sigma T : xreal) (n : nat) : rng (list xreal) :=
  match n with
  | O => ret []
  | S n' =>
      ST <- simulate_gbm S0 r sigma T ;;
      STs <- gbm_draws S0 r sigma T n' ;;
      ret (ST :: STs)
  end.

(** The sum of the call payoffs of a list of terminal prices. *)
Definition sum_call_payoffs (K : xreal) (STs : list xreal) : xreal :=
  fold_left (fun acc ST => xadd acc (call_payoff ST K)) STs (Fin 0).

(** The Black-Scholes formula as the spec writes it. *)
Definition Phi (x : R) : R := 1 / 2 * (1 + erf (x / sqrt 2)).

Definition bs_d1 (S0 K r sigma T : R) : R :=
  (ln (S0 / K) + (r + sigma ^ 2 / 2) * T) / (sigma * sqrt T).

Definition bs_d2 (S0 K r sigma T : R) : R :=
  bs_d1 S0 K r sigma T - sigma * sqrt T.

Definition bs_formula (S0 K r sigma T : R) : R :=
  S0 * Phi (bs_d1 S0 K r sigma T)
  - K * exp (- r * T) * Phi (bs_d2 S0 K r sigma T).

(** ** 32-bit lemmas *)

Section Words.
Local Open Scope Z_scope.

Lemma wrap32_range (z : Z) : 0 <= wrap32 z < 2 ^ 32.
Proof. unfold wrap32. apply Z.mod_pos_bound. lia. Qed.

Lemma lxor_range (a b : Z) :
  0 <= a < 2 ^ 32 -> 0 <= b < 2 ^ 32 -> 0 <= Z.lxor a b < 2 ^ 32.
Proof.
  intros Ha Hb.
  assert (Hn : 0 <= Z.lxor a b) by (apply Z.lxor_nonneg; lia).
  split; [exact Hn|].
  assert (Hs : Z.shiftr (Z.lxor a b) 32 = 0).
  { rewrite Z.shiftr_lxor, !Z.shiftr_div_pow2 by lia.
    rewrite (Z.div_small a), (Z.div_small b) by lia. reflexivity. }
  rewrite Z.shiftr_div_pow2 in Hs by lia.
  destruct (Z.lt_ge_cases (Z.lxor a b) (2 ^ 32)) as [Hlt|Hge]; [exact Hlt|].
  assert (1 <= Z.lxor a b / 2 ^ 32) by (apply Z.div_le_lower_bound; lia).
  lia.
Qed.

Lemma shiftr_range (x : Z) (k : Z) :
  0 <= k -> 0 <= x < 2 ^ 32 -> 0 <= Z.shiftr x k < 2 ^ 32.
Proof.
  intros Hk Hx. rewrite Z.shiftr_div_pow2 by lia.
  split; [apply Z.div_pos; [lia | apply Z.pow_pos_nonneg; lia]|].
  apply (Z.le_lt_trans _ x); [|lia].
  apply Z.div_le_upper_bound; [apply Z.pow_pos_nonneg; lia|].
  assert (1 <= 2 ^ k) by (apply Z.pow_le_mono_r with (a := 2) in Hk; simpl in Hk; lia).
  nia.
Qed.

Lemma xorshift32_next_range (x : Z) :
  0 <= x < 2 ^ 32 -> 0 <= xorshift32_next x < 2 ^ 32.
Proof.
  intros Hx. unfold xorshift32_next.
  apply lxor_range; [|apply wrap32_range].
  apply lxor_range; [|apply shiftr_range; [lia|]];
    apply lxor_range; auto using wrap32_range.
Qed.

(** A left xor-shift step maps a nonzero word to a nonzero word:
    [x = (x << k) mod 2^32] would make [2^32] divide [x * (2^k - 1)]. *)
Lemma lxor_shiftl_nonzero (x k : Z) :
  0 <= k -> Z.gcd (2 ^ 32) (2 ^ k - 1) = 1 ->
  0 < x < 2 ^ 32 -> Z.lxor x (wrap32 (Z.shiftl x k)) <> 0.
Proof.
  intros Hk Hg Hx H0.
  apply (proj1 (Z.lxor_eq_0_iff _ _)) in H0. unfold wrap32 in H0.
  rewrite Z.shiftl_mul_pow2 in H0 by lia.
  assert (Hd : (2 ^ 32 | (2 ^ k - 1) * x)).
  { exists ((x * 2 ^ k) / 2 ^ 32).
    pose proof (Z.div_mod (x * 2 ^ k) (2 ^ 32) ltac:(lia)) as Hdm.
    rewrite <- H0 in Hdm. lia. }
  apply Z.gauss in Hd; [|exact Hg].
  destruct Hd as [q Hq]. nia.
Qed.

Lemma lxor_shiftr_nonzero (x k : Z) :
  0 < k -> 0 < x -> Z.lxor x (Z.shiftr x k) <> 0.
Proof.
  intros Hk Hx H0.
  apply (proj1 (Z.lxor_eq_0_iff _ _)) in H0.
  rewrite Z.shiftr_div_pow2 in H0 by lia.
  assert (x / 2 ^ k < x).
  { apply Z.div_lt; [lia|].
    assert (2 ^ 1 <= 2 ^ k) by (apply Z.pow_le_mono_r; lia). simpl in *; lia. }
  lia.
Qed.

Lemma xorshift32_next_nonzero (x : Z) :
  0 < x < 2 ^ 32 -> xorshift32_next x <> 0.
Proof.
  intros Hx. unfold xorshift32_next.
  pose proof (lxor_range x (wrap32 (Z.shiftl x 13)) ltac:(lia) (wrap32_range _)) as R1.
  pose proof (lxor_shiftl_nonzero x 13 ltac:(lia) eq_refl Hx) as N1.
  set (x1 := Z.lxor x (wrap32 (Z.shiftl x 13))) in *.
  pose proof (lxor_range x1 (Z.shiftr x1 17) R1 (shiftr_range x1 17 ltac:(lia) R1)) as R2.
  pose proof (lxor_shiftr_nonzero x1 17 ltac:(lia) ltac:(lia)) as N2.
  set (x2 := Z.lxor x1 (Z.shiftr x1 17)) in *.
  apply (lxor_shiftl_nonzero x2 5 ltac:(lia) eq_refl). lia.
Qed.

Lemma seeded_range (s : Z) : seeded s -> 0 < s < 2 ^ 32.
Proof.
  induction 1 as [seed Hs | s _ IH]; simpl.
  - destruct (Z.eqb_spec seed 0); lia.
  - pose proof (xorshift32_next_range s ltac:(lia)).
    pose proof (xorshift32_next_nonzero s IH). lia.
Qed.

End Words.

(** ** Arithmetic on finite doubles *)

Lemma xdiv_fin (x y : R) : y <> 0 -> xdiv (Fin x) (Fin y) = Fin (x / y).
Proof. intros Hy. simpl. destruct (Req_dec_T y 0); [contradiction | reflexivity]. Qed.

Lemma xlog_pos (x : R) : 0 < x -> xlog (Fin x) = Fin (ln x).
Proof. intros Hx. simpl. destruct (Rlt_dec 0 x); [reflexivity | contradiction]. Qed.

Lemma xsqrt_nonneg (x : R) : 0 <= x -> xsqrt (Fin x) = Fin (sqrt x).
Proof. intros Hx. simpl. destruct (Rlt_dec x 0); [lra | reflexivity]. Qed.

Lemma UINT32_MAX_pos : 0 < IZR UINT32_MAX.
Proof. apply IZR_lt. reflexivity. Qed.

Lemma random_double_eq (s : Z) :
  random_double s =
  (Fin (IZR (xorshift32_next s) / IZR UINT32_MAX), xorshift32_next s).
Proof.
  cbv beta iota zeta delta [random_double bind ret xorshift32].
  rewrite xdiv_fin; [reflexivity | apply Rgt_not_eq, UINT32_MAX_pos].
Qed.

Lemma normal_random_eq (s : Z) :
  normal_random s =
  (box_muller (fst (random_double s)) (fst (random_double (snd (random_double s)))),
   snd (random_double (snd (random_double s)))).
Proof.
  unfold normal_random, bind, ret.
  destruct (random_double s) as [u1 s1].
  simpl. destruct (random_double s1) as [u2 s2]. reflexivity.
Qed.

Lemma xorshift32_next_zero : xorshift32_next 0 = 0%Z.
Proof. vm_compute. reflexivity. Qed.

Lemma xorshift32_next_zero_iff (s : Z) :
  (0 <= s < 2 ^ 32)%Z -> xorshift32_next s = 0%Z <-> s = 0%Z.
Proof.
  intros Hs. split.
  - intros H. destruct (Z.eq_dec s 0) as [|Hn]; [assumption|].
    exfalso. apply (xorshift32_next_nonzero s); [lia | exact H].
  - intros ->. exact xorshift32_next_zero.
Qed.

Lemma uniform_zero_iff (s : Z) :
  (0 <= s < 2 ^ 32)%Z -> fst (random_double s) = Fin 0 <-> s = 0%Z.
Proof.
  intros Hs. rewrite random_double_eq. simpl.
  rewrite <- xorshift32_next_zero_iff by exact Hs.
  pose proof UINT32_MAX_pos as HM. split.
  - intros H. injection H as H.
    apply eq_IZR. unfold Rdiv in H.
    apply Rmult_integral in H as [H|H]; [exact H|].
    exfalso. apply (Rinv_neq_0_compat (IZR UINT32_MAX)); lra.
  - intros ->. f_equal. unfold Rdiv. ring.
Qed.

(** ** Uniform generator claims *)

(** C3 (claimed: every draw of [random_double] from a nonzero state lies in
    [0, 1)).  The state [1584200935] is the image of a [uint32_t] seed under
    [rng_seed], and the next [xorshift32] output from it is [UINT32_MAX], so
    [random_double] returns [UINT32_MAX / UINT32_MAX = 1]. *)
Lemma C3_uniform_draw_equals_one :
  seeded 1584200935%Z /\
  xorshift32_next 1584200935 = UINT32_MAX /\
  fst (random_double 1584200935%Z) = Fin 1.
Proof.
  assert (Hx : xorshift32_next 1584200935 = UINT32_MAX) by (vm_compute; reflexivity).
  split; [|split; [exact Hx|]].
  - change 1584200935%Z with (snd (rng_seed 1584200935 0%Z)).
    apply seeded_seed. lia.
  - rewrite random_double_eq, Hx. simpl. f_equal.
    field. apply Rgt_not_eq, UINT32_MAX_pos.
Qed.

(** C8: [rng_seed 0] puts the generator in the same state as [rng_seed 1],
    so any number of subsequent uniform draws coincide. *)
Theorem C8_seed_zero_same_as_seed_one (old : Z) (n : nat) :
  snd (rng_seed 0 old) = snd (rng_seed 1 old) /\
  (_ <- rng_seed 0 ;; uniforms n) old = (_ <- rng_seed 1 ;; uniforms n) old.
Proof. split; reflexivity. Qed.

(** C10: from a state established by [rng_seed], [xorshift32] keeps the state
    nonzero (and reachable); the next uniform draw is at least
    [1 / (2^32 - 1)], hence positive, and it is the [u1] whose [log]
    [normal_random] takes, at a positive argument. *)
Theorem C10_seeded_state_positive_draws (s : Z) (Hs : seeded s) :
  snd (xorshift32 s) <> 0%Z /\ seeded (snd (xorshift32 s)) /\
  exists u1 : R,
    fst (random_double s) = Fin u1 /\
    1 / IZR UINT32_MAX <= u1 /\ 0 < u1 /\
    xlog (fst (random_double s)) = Fin (ln u1) /\
    fst (normal_random s) =
      box_muller (Fin u1) (fst (random_double (snd (random_double s)))).
Proof.
  pose proof (seeded_range s Hs) as Hr.
  pose proof (xorshift32_next_range s ltac:(lia)) as Hx.
  pose proof (xorshift32_next_nonzero s Hr) as Hn.
  pose proof UINT32_MAX_pos as HM.
  assert (Hu : 1 / IZR UINT32_MAX <= IZR (xorshift32_next s) / IZR UINT32_MAX).
  { unfold Rdiv. apply Rmult_le_compat_r.
    - left. apply Rinv_0_lt_compat. exact HM.
    - apply IZR_le. lia. }
  split; [exact Hn|]. split; [apply seeded_step; exact Hs|].
  exists (IZR (xorshift32_next s) / IZR UINT32_MAX).
  assert (Hp : 0 < IZR (xorshift32_next s) / IZR UINT32_MAX).
  { apply (Rlt_le_trans _ (1 / IZR UINT32_MAX)); [|exact Hu].
    unfold Rdiv. rewrite Rmult_1_l. apply Rinv_0_lt_compat. exact HM. }
  rewrite normal_random_eq. rewrite random_double_eq. simpl fst.
  repeat split; [exact Hu | exact Hp | apply xlog_pos; exact Hp].
Qed.

(** ** Gaussian sampler claims *)

Lemma random_double_zero : random_double 0%Z = (Fin 0, 0%Z).
Proof.
  rewrite random_double_eq, xorshift32_next_zero. f_equal. f_equal.
  unfold Rdiv. ring.
Qed.

Lemma xlog_zero : xlog (Fin 0) = NInf.
Proof.
  simpl. destruct (Rlt_dec 0 0); [lra|].
  destruct (Req_dec_T 0 0); [reflexivity | contradiction].
Qed.

Lemma normal_random_zero : normal_random 0%Z = (PInf, 0%Z).
Proof.
  rewrite normal_random_eq, random_double_zero. cbn [fst snd].
  rewrite random_double_zero. cbn [fst snd]. f_equal.
  unfold box_muller. rewrite xlog_zero. cbn [xmul xsqrt xcos].
  unfold inf_of_sign.
  destruct (Req_dec_T (-2) 0); [lra|]. destruct (Rlt_dec 0 (-2)); [lra|].
  cbn [xsqrt xmul]. rewrite Rmult_0_r, cos_0. unfold inf_of_sign.
  destruct (Req_dec_T 1 0); [lra|]. destruct (Rlt_dec 0 1); [reflexivity|lra].
Qed.

(** C7 (claimed: [normal_random] guards against [u1 = 0]).  There is no
    guard: from the state [0] (the zero-initialised [rng_state] before any
    [rng_seed]) the first draw is [0], [log] is applied to it, giving -inf,
    and [normal_random] returns +inf. *)
Lemma C7_log_applied_to_zero :
  fst (random_double 0%Z) = Fin 0 /\
  xlog (fst (random_double 0%Z)) = NInf /\
  normal_random 0%Z = (PInf, 0%Z).
Proof.
  rewrite random_double_zero. cbn [fst].
  split; [reflexivity|]. split; [exact xlog_zero | exact normal_random_zero].
Qed.

(** C7, as the code has it: [normal_random] hands its first draw to [log]
    unguarded; that draw is [0] exactly when the state before it is [0], and
    then the sample is +inf. *)
Theorem C7_normal_random_unguarded (s : Z) (Hs : (0 <= s < 2 ^ 32)%Z) :
  fst (normal_random s) =
    box_muller (fst (random_double s)) (fst (random_double (snd (random_double s)))) /\
  (fst (random_double s) = Fin 0 <-> s = 0%Z) /\
  (s = 0%Z -> fst (normal_random s) = PInf).
Proof.
  split; [rewrite normal_random_eq; reflexivity|].
  split; [apply uniform_zero_iff; exact Hs|].
  intros ->. rewrite normal_random_zero. reflexivity.
Qed.

(** ** Payoff claims *)

Lemma xgt_fin (x y : R) : xgt (Fin x) (Fin y) = if Rlt_dec y x then true else false.
Proof. reflexivity. Qed.

(** C9: on finite [S] and [K], [call_payoff - put_payoff = S - K] and
    [call_payoff + put_payoff = |S - K|]. *)
Theorem C9_payoff_parity (S K : R) :
  xsub (call_payoff (Fin S) (Fin K)) (put_payoff (Fin S) (Fin K)) = Fin (S - K) /\
  xadd (call_payoff (Fin S) (Fin K)) (put_payoff (Fin S) (Fin K)) = Fin (Rabs (S - K)).
Proof.
  unfold call_payoff, put_payoff. rewrite !xgt_fin.
  destruct (Rlt_dec K S) as [H1|H1]; destruct (Rlt_dec S K) as [H2|H2];
    cbn [xsub xadd xneg]; try lra.
  - split; f_equal; [ring|]. rewrite Rabs_right by lra. ring.
  - split; f_equal; [ring|]. rewrite Rabs_left by lra. ring.
  - assert (S = K) by lra. subst. split; f_equal; [ring|].
    rewrite Rminus_diag, Rabs_R0. ring.
Qed.

(** ** GBM simulator claims *)

(** C6: [simulate_gbm] draws one normal sample [Z] (two uniform draws,
    hence two [xorshift32] steps) and returns
    [S0 * exp((r - sigma^2/2) T + sigma sqrt(T) Z)]. *)
Theorem C6_simulate_gbm_closed_form (S0 r sigma T : R) (s : Z) :
  simulate_gbm (Fin S0) (Fin r) (Fin sigma) (Fin T) s =
  (xmul (Fin S0)
     (xexp (xadd (Fin ((r - sigma ^ 2 / 2) * T))
                 (xmul (xmul (Fin sigma) (xsqrt (Fin T))) (fst (normal_random s))))),
   snd (normal_random s)) /\
  snd (normal_random s) = xorshift32_next (xorshift32_next s).
Proof.
  split.
  - unfold simulate_gbm, bind, ret.
    assert (Hd : xmul (xsub (Fin r) (xmul (xmul (Fin (1 / 2)) (Fin sigma)) (Fin sigma)))
                      (Fin T) = Fin ((r - sigma ^ 2 / 2) * T)).
    { cbn [xsub xadd xneg xmul]. f_equal. field. }
    rewrite Hd. destruct (normal_random s) as [z s']. reflexivity.
  - rewrite normal_random_eq, !random_double_eq. reflexivity.
Qed.

(** ** Black-Scholes claims *)

Lemma sqrt2_pos : 0 < sqrt 2.
Proof. apply sqrt_lt_R0. lra. Qed.

Lemma normal_cdf_fin (x : R) : normal_cdf (Fin x) = Fin (Phi x).
Proof.
  unfold normal_cdf. rewrite xsqrt_nonneg by lra.
  rewrite xdiv_fin by (apply Rgt_not_eq, sqrt2_pos). reflexivity.
Qed.



Lemma normal_cdf_nan : normal_cdf NaN = NaN.
Proof. reflexivity. Qed.

(** C5: for [S0, K, sigma, T > 0], [price_european_call_bs] returns the
    Black-Scholes formula with [Phi x = (1 + erf(x / sqrt 2)) / 2]. *)
Theorem C5_bs_price_formula (S0 K r sigma T : R)
  (HS0 : 0 < S0) (HK : 0 < K) (Hsig : 0 < sigma) (HT : 0 < T) :
  price_european_call_bs (Fin S0) (Fin K) (Fin r) (Fin sigma) (Fin T) =
  Fin (bs_formula S0 K r sigma T).
Proof.
  assert (Hq : 0 < sigma * sqrt T) by (apply Rmult_lt_0_compat; [lra | apply sqrt_lt_R0; lra]).
  unfold price_european_call_bs.
  rewrite xsqrt_nonneg by lra.
  rewrite xdiv_fin by lra.
  rewrite xlog_pos by (apply Rdiv_lt_0_compat; lra).
  cbn [xadd xmul xneg xsub xexp].
  rewrite xdiv_fin by lra. cbn [xadd xmul xneg xsub].
  rewrite !normal_cdf_fin. cbn [xadd xmul xneg xsub].
  f_equal. unfold bs_formula, bs_d2, bs_d1.
  replace (r + 1 / 2 * sigma * sigma) with (r + sigma ^ 2 / 2) by field.
  unfold Rminus. reflexivity.
Qed.




(** ** Monte Carlo estimator claims *)

Lemma mc_loop_draws (S0 K r sigma T : xreal) (i : nat) (acc : xreal) (s : Z) :
  mc_loop S0 K r sigma T i acc s =
  (fold_left (fun acc ST => xadd acc (call_payoff ST K))
             (fst (gbm_draws S0 r sigma T i s)) acc,
   snd (gbm_draws S0 r sigma T i s)).
Proof.
  revert acc s. induction i as [|i IH]; intros acc s; [reflexivity|].
  cbn [mc_loop gbm_draws]. unfold bind, ret.
  destruct (simulate_gbm S0 r sigma T s) as [ST s1].
  rewrite IH. destruct (gbm_draws S0 r sigma T i s1) as [STs s2].
  reflexivity.
Qed.

Lemma inf_of_sign_pos (x : R) (b : bool) :
  0 < x -> inf_of_sign x b = if b then PInf else NInf.
Proof.
  intros Hx. unfold inf_of_sign.
  destruct (Req_dec_T x 0); [lra|]. destruct (Rlt_dec 0 x); [reflexivity | lra].
Qed.

(** Averaging then discounting is discounting the [1/n]-scaled sum, for
    every double the sum may be. *)
Lemma xdiv_then_discount (x : xreal) (n e : R) :
  0 < n -> 0 < e ->
  xmul (xdiv x (Fin n)) (Fin e) = xmul (xmul (Fin e) (Fin (1 / n))) x.
Proof.
  intros Hn He.
  assert (Hen : 0 < e * (1 / n)) by (apply Rmult_lt_0_compat; [lra | apply Rdiv_lt_0_compat; lra]).
  destruct x as [x| | |].
  - rewrite xdiv_fin by lra. cbn [xmul]. f_equal. field. lra.
  - cbn [xdiv xmul]. destruct (Req_dec_T n 0); [lra|].
    rewrite !inf_of_sign_pos by assumption. cbn [xmul].
    rewrite inf_of_sign_pos by assumption. reflexivity.
  - cbn [xdiv xmul]. destruct (Req_dec_T n 0); [lra|].
    rewrite !inf_of_sign_pos by assumption. cbn [xmul].
    rewrite inf_of_sign_pos by assumption. reflexivity.
  - reflexivity.
Qed.

Lemma price_mc_zero_sims (S0 K r sigma T : xreal) (s : Z) :
  price_european_call_mc S0 K r sigma T 0 s = (NaN, s).
Proof.
  assert (H : xdiv (Fin 0) (Fin (IZR 0)) = NaN).
  { cbn [xdiv IZR]. destruct (Req_dec_T 0 0); [|contradiction].
    unfold inf_of_sign. destruct (Req_dec_T 0 0); [reflexivity | contradiction]. }
  unfold price_european_call_mc, bind.
  change (mc_loop S0 K r sigma T (Z.to_nat 0) (Fin 0) s) with (Fin 0, s).
  unfold ret. rewrite H. reflexivity.
Qed.

(** C1 (claimed: [n_sim = 0], [S0 <= 0], ... make the pricer fail with
    InvalidArgument, never a silent NaN).  The pricer has no failure path:
    at [S0 = K = 100], [r = 0.05], [sigma = 0.2], [T = 1], [n_sim = 0],
    seeded with 1, it returns NaN. *)
Lemma C1_mc_zero_sims_returns_nan :
  fst (price_european_call_mc (Fin 100) (Fin 100) (Fin (5 / 100)) (Fin (2 / 10))
         (Fin 1) 0 (snd (rng_seed 1 0%Z))) = NaN.
Proof. rewrite price_mc_zero_sims. reflexivity. Qed.

(** C1, as the code has it: [price_european_call_mc] validates nothing and
    always returns a double; with [n_sim = 0] the loop is skipped, the
    generator state is untouched and the result is [0.0 / 0 * exp(-r T)],
    NaN, whatever the other arguments. *)
Theorem C1_mc_no_validation_nan (S0 K r sigma T : xreal) (s : Z) :
  price_european_call_mc S0 K r sigma T 0 s = (NaN, s).
Proof. apply price_mc_zero_sims. Qed.

(** C4: [price_european_call_mc] runs [n_sim] successive [simulate_gbm]
    draws (threading the generator state) and returns the sum of their call
    payoffs divided by [n_sim], then multiplied by [exp(-r T)]; this equals
    [exp(-r T) * (1 / n_sim) * sum].  Only [1 <= n_sim] and finite [r], [T]
    are used; the statement holds for every generator state. *)
Theorem C4_mc_discounted_average (S0 K r sigma T : R) (n_sim s : Z)
  (HS0 : 0 < S0) (HK : 0 < K) (HT : 0 <= T) (Hsig : 0 <= sigma)
  (Hn : (1 <= n_sim < 2 ^ 32)%Z) :
  let draws := gbm_draws (Fin S0) (Fin r) (Fin sigma) (Fin T) (Z.to_nat n_sim) s in
  let sum := sum_call_payoffs (Fin K) (fst draws) in
  price_european_call_mc (Fin S0) (Fin K) (Fin r) (Fin sigma) (Fin T) n_sim s =
    (xmul (xdiv sum (Fin (IZR n_sim))) (Fin (exp (- r * T))), snd draws) /\
  fst (price_european_call_mc (Fin S0) (Fin K) (Fin r) (Fin sigma) (Fin T) n_sim s) =
    xmul (xmul (Fin (exp (- r * T))) (Fin (1 / IZR n_sim))) sum.
Proof.
  intros draws sum.
  assert (Heq : price_european_call_mc (Fin S0) (Fin K) (Fin r) (Fin sigma) (Fin T) n_sim s =
    (xmul (xdiv sum (Fin (IZR n_sim))) (Fin (exp (- r * T))), snd draws)).
  { unfold price_european_call_mc, bind, ret.
    rewrite mc_loop_draws. reflexivity. }
  split; [exact Heq|].
  rewrite Heq. cbn [fst]. apply xdiv_then_discount.
  - apply IZR_lt. lia.
  - apply exp_pos.
Qed.

(** ** Witnesses: the theorems with hypotheses, at concrete inputs *)

Lemma C10_seeded_state_positive_draws_witness :
  seeded 123456%Z /\
  snd (xorshift32 123456%Z) <> 0%Z /\ seeded (snd (xorshift32 123456%Z)) /\
  exists u1 : R,
    fst (random_double 123456%Z) = Fin u1 /\
    1 / IZR UINT32_MAX <= u1 /\ 0 < u1 /\
    xlog (fst (random_double 123456%Z)) = Fin (ln u1) /\
    fst (normal_random 123456%Z) =
      box_muller (Fin u1) (fst (random_double (snd (random_double 123456%Z)))).
Proof.
  assert (Hs : seeded 123456%Z).
  { change 123456%Z with (snd (rng_seed 123456 0%Z)). apply seeded_seed. lia. }
  split; [exact Hs|]. exact (C10_seeded_state_positive_draws 123456 Hs).
Defined.

Lemma C7_normal_random_unguarded_witness :
  (0 <= 0 < 2 ^ 32)%Z /\
  fst (normal_random 0%Z) =
    box_muller (fst (random_double 0%Z)) (fst (random_double (snd (random_double 0%Z)))) /\
  (fst (random_double 0%Z) = Fin 0 <-> 0%Z = 0%Z) /\
  (0%Z = 0%Z -> fst (normal_random 0%Z) = PInf).
Proof.
  assert (H : (0 <= 0 < 2 ^ 32)%Z) by lia.
  split; [exact H|]. exact (C7_normal_random_unguarded 0 H).
Defined.

Lemma C5_bs_price_formula_witness :
  0 < 100 /\ 0 < 100 /\ 0 < 2 / 10 /\ 0 < 1 /\
  price_european_call_bs (Fin 100) (Fin 100) (Fin (5 / 100)) (Fin (2 / 10)) (Fin 1) =
  Fin (bs_formula 100 100 (5 / 100) (2 / 10) 1).
Proof.
  split; [lra|]. split; [lra|]. split; [lra|]. split; [lra|].
  apply C5_bs_price_formula; lra.
Defined.


Lemma C4_mc_discounted_average_witness :
  0 < 100 /\ 0 < 100 /\ 0 <= 1 /\ 0 <= 2 / 10 /\ (1 <= 3 < 2 ^ 32)%Z /\
  let draws := gbm_draws (Fin 100) (Fin (5 / 100)) (Fin (2 / 10)) (Fin 1) (Z.to_nat 3) 123456%Z in
  let sum := sum_call_payoffs (Fin 100) (fst draws) in
  price_european_call_mc (Fin 100) (Fin 100) (Fin (5 / 100)) (Fin (2 / 10)) (Fin 1) 3 123456%Z =
    (xmul (xdiv sum (Fin (IZR 3))) (Fin (exp (- (5 / 100) * 1))), snd draws) /\
  fst (price_european_call_mc (Fin 100) (Fin 100) (Fin (5 / 100)) (Fin (2 / 10)) (Fin 1) 3 123456%Z) =
    xmul (xmul (Fin (exp (- (5 / 100) * 1))) (Fin (1 / IZR 3))) sum.
Proof.
  split; [lra|]. split; [lra|]. split; [lra|]. split; [lra|]. split; [lia|].
  apply C4_mc_discounted_average; [lra | lra | lra | lra | lia].
Defined.

(** * Further properties of the code *)

(** ** The xor-shift steps are linear and injective *)

Section Bijective.
Local Open Scope Z_scope.

Definition xs_left (k x : Z) : Z := Z.lxor x (wrap32 (Z.shiftl x k)).
Definition xs_right (k x : Z) : Z := Z.lxor x (Z.shiftr x k).

Lemma xorshift32_next_steps (x : Z) :
  xorshift32_next x = xs_left 5 (xs_right 17 (xs_left 13 x)).
Proof. reflexivity. Qed.

Lemma wrap32_lxor (a b : Z) : wrap32 (Z.lxor a b) = Z.lxor (wrap32 a) (wrap32 b).
Proof.
  unfold wrap32. apply Z.bits_inj'. intros i Hi. rewrite Z.lxor_spec.
  destruct (Z.lt_ge_cases i 32).
  - rewrite !Z.mod_pow2_bits_low by lia. apply Z.lxor_spec.
  - rewrite !Z.mod_pow2_bits_high by lia. reflexivity.
Qed.

Lemma lxor_swap (a b c d : Z) :
  Z.lxor (Z.lxor a b) (Z.lxor c d) = Z.lxor (Z.lxor a c) (Z.lxor b d).
Proof.
  apply Z.bits_inj'. intros i _. rewrite !Z.lxor_spec.
  destruct (Z.testbit a i), (Z.testbit b i), (Z.testbit c i), (Z.testbit d i);
    reflexivity.
Qed.

Lemma xs_left_lxor (k a b : Z) : 0 <= k ->
  xs_left k (Z.lxor a b) = Z.lxor (xs_left k a) (xs_left k b).
Proof.
  intros Hk. unfold xs_left. rewrite Z.shiftl_lxor, wrap32_lxor. apply lxor_swap.
Qed.

Lemma xs_right_lxor (k a b : Z) :
  xs_right k (Z.lxor a b) = Z.lxor (xs_right k a) (xs_right k b).
Proof. unfold xs_right. rewrite Z.shiftr_lxor. apply lxor_swap. Qed.

Lemma lxor_eq_0 (a b : Z) : Z.lxor a b = 0 -> a = b.
Proof. apply (proj1 (Z.lxor_eq_0_iff a b)). Qed.

Lemma xs_left_inj (k a b : Z) :
  0 <= k -> Z.gcd (2 ^ 32) (2 ^ k - 1) = 1 ->
  0 <= a < 2 ^ 32 -> 0 <= b < 2 ^ 32 -> xs_left k a = xs_left k b -> a = b.
Proof.
  intros Hk Hg Ha Hb H.
  pose proof (lxor_range a b Ha Hb) as Hr.
  destruct (Z.eq_dec (Z.lxor a b) 0) as [H0|H0]; [apply lxor_eq_0; exact H0|].
  exfalso. apply (lxor_shiftl_nonzero (Z.lxor a b) k Hk Hg); [lia|].
  fold (xs_left k (Z.lxor a b)). rewrite xs_left_lxor by exact Hk.
  rewrite H. apply Z.lxor_nilpotent.
Qed.

Lemma xs_right_inj (k a b : Z) :
  0 < k -> 0 <= a < 2 ^ 32 -> 0 <= b < 2 ^ 32 -> xs_right k a = xs_right k b -> a = b.
Proof.
  intros Hk Ha Hb H.
  pose proof (lxor_range a b Ha Hb) as Hr.
  destruct (Z.eq_dec (Z.lxor a b) 0) as [H0|H0]; [apply lxor_eq_0; exact H0|].
  exfalso. apply (lxor_shiftr_nonzero (Z.lxor a b) k Hk); [lia|].
  fold (xs_right k (Z.lxor a b)). rewrite xs_right_lxor.
  rewrite H. apply Z.lxor_nilpotent.
Qed.

Lemma xs_left_range (k x : Z) : 0 <= x < 2 ^ 32 -> 0 <= xs_left k x < 2 ^ 32.
Proof. intros Hx. apply lxor_range; [exact Hx | apply wrap32_range]. Qed.

Lemma xs_right_range (k x : Z) :
  0 <= k -> 0 <= x < 2 ^ 32 -> 0 <= xs_right k x < 2 ^ 32.
Proof. intros Hk Hx. apply lxor_range; [exact Hx | apply shiftr_range; assumption]. Qed.

End Bijective.

(** ** Uniform generator *)

(** [xorshift32] is injective on 32-bit states: two different states are
    never advanced to the same next state. *)
Theorem xorshift32_injective (a b : Z)
  (Ha : (0 <= a < 2 ^ 32)%Z) (Hb : (0 <= b < 2 ^ 32)%Z) :
  snd (xorshift32 a) = snd (xorshift32 b) -> a = b.
Proof.
  cbn [xorshift32 snd]. rewrite !xorshift32_next_steps. intros H.
  apply xs_left_inj in H;
    [| lia | reflexivity
     | apply xs_right_range; [lia | apply xs_left_range; exact Ha]
     | apply xs_right_range; [lia | apply xs_left_range; exact Hb]].
  apply xs_right_inj in H; [| lia | apply xs_left_range; exact Ha | apply xs_left_range; exact Hb].
  apply xs_left_inj in H; [exact H | lia | reflexivity | exact Ha | exact Hb].
Qed.

Lemma xorshift32_injective_witness :
  (0 <= 7 < 2 ^ 32)%Z /\ (0 <= 7 < 2 ^ 32)%Z /\
  (snd (xorshift32 7%Z) = snd (xorshift32 7%Z) -> 7%Z = 7%Z).
Proof.
  assert (H : (0 <= 7 < 2 ^ 32)%Z) by lia.
  split; [exact H|]. split; [exact H|]. exact (xorshift32_injective 7%Z 7%Z H H).
Defined.

(** The state [0] is absorbing: from it every uniform draw is [0] and the
    state stays [0], for any number of draws (why [rng_seed] replaces a
    zero seed). *)
Theorem uniforms_from_zero (n : nat) :
  uniforms n 0%Z = (repeat (Fin 0) n, 0%Z).
Proof.
  induction n as [|n IH]; [reflexivity|].
  cbn [uniforms]. unfold bind at 1. rewrite random_double_zero.
  unfold bind. rewrite IH. reflexivity.
Qed.

(** On every 32-bit state, [random_double] returns a finite value in the
    closed interval [0, 1], equal to [1] exactly when the next state is
    [UINT32_MAX], and leaves a 32-bit state. *)
Theorem random_double_range (s : Z) (Hs : (0 <= s < 2 ^ 32)%Z) :
  exists u : R,
    fst (random_double s) = Fin u /\ 0 <= u <= 1 /\
    (u = 1 <-> xorshift32_next s = UINT32_MAX) /\
    (0 <= snd (random_double s) < 2 ^ 32)%Z.
Proof.
  pose proof (xorshift32_next_range s Hs) as Hx.
  pose proof UINT32_MAX_pos as HM.
  rewrite random_double_eq. cbn [fst snd].
  exists (IZR (xorshift32_next s) / IZR UINT32_MAX).
  split; [reflexivity|]. split; [|split; [|exact Hx]].
  - split.
    + unfold Rdiv. apply Rmult_le_pos; [apply IZR_le; lia|].
      left. apply Rinv_0_lt_compat. exact HM.
    + apply (Rmult_le_reg_r (IZR UINT32_MAX)); [exact HM|].
      unfold Rdiv. rewrite Rmult_assoc, Rinv_l, Rmult_1_r, Rmult_1_l by lra.
      apply IZR_le. unfold UINT32_MAX. lia.
  - split.
    + intros H. apply eq_IZR.
      apply (Rmult_eq_compat_r (IZR UINT32_MAX)) in H.
      unfold Rdiv in H. rewrite Rmult_assoc, Rinv_l, Rmult_1_r, Rmult_1_l in H by lra.
      exact H.
    + intros ->. field. lra.
Qed.

Lemma random_double_range_witness :
  (0 <= 1 < 2 ^ 32)%Z /\
  exists u : R,
    fst (random_double 1%Z) = Fin u /\ 0 <= u <= 1 /\
    (u = 1 <-> xorshift32_next 1 = UINT32_MAX) /\
    (0 <= snd (random_double 1%Z) < 2 ^ 32)%Z.
Proof.
  assert (H : (0 <= 1 < 2 ^ 32)%Z) by lia.
  split; [exact H|]. exact (random_double_range 1%Z H).
Defined.

(** Two different nonzero seeds give different first uniform draws. *)
Theorem distinct_seeds_distinct_first_draw (a b old : Z)
  (Ha : (0 < a < 2 ^ 32)%Z) (Hb : (0 < b < 2 ^ 32)%Z) (Hab : a <> b) :
  fst (random_double (snd (rng_seed a old))) <>
  fst (random_double (snd (rng_seed b old))).
Proof.
  pose proof UINT32_MAX_pos as HM.
  cbn [rng_seed snd].
  destruct (Z.eqb_spec a 0) as [|_]; [lia|]. destruct (Z.eqb_spec b 0) as [|_]; [lia|].
  rewrite !random_double_eq. cbn [fst]. intros H. injection H as H.
  apply (Rmult_eq_compat_r (IZR UINT32_MAX)) in H.
  unfold Rdiv in H. rewrite !Rmult_assoc, Rinv_l, !Rmult_1_r in H by lra.
  apply eq_IZR in H.
  apply Hab, (xorshift32_injective a b); [lia | lia | exact H].
Qed.

Lemma distinct_seeds_distinct_first_draw_witness :
  (0 < 1 < 2 ^ 32)%Z /\ (0 < 2 < 2 ^ 32)%Z /\ (1 <> 2)%Z /\
  fst (random_double (snd (rng_seed 1 0%Z))) <>
  fst (random_double (snd (rng_seed 2 0%Z))).
Proof.
  assert (H1 : (0 < 1 < 2 ^ 32)%Z) by lia. assert (H2 : (0 < 2 < 2 ^ 32)%Z) by lia.
  assert (H12 : (1 <> 2)%Z) by lia.
  split; [exact H1|]. split; [exact H2|]. split; [exact H12|].
  exact (distinct_seeds_distinct_first_draw 1%Z 2%Z 0%Z H1 H2 H12).
Defined.

(** ** Gaussian sampler and GBM simulator *)

Lemma ln_le_mono (x y : R) : 0 < x -> x <= y -> ln x <= ln y.
Proof.
  intros Hx [Hlt|Heq]; [left; apply ln_increasing; assumption | subst; lra].
Qed.

(** A draw from a reachable state: in [1/UINT32_MAX, 1], and the next state
    is reachable. *)
Lemma seeded_draw (s : Z) :
  seeded s ->
  exists u : R,
    fst (random_double s) = Fin u /\ 1 / IZR UINT32_MAX <= u <= 1 /\
    seeded (snd (random_double s)).
Proof.
  intros Hs.
  pose proof (seeded_range s Hs) as Hr.
  pose proof (xorshift32_next_range s ltac:(lia)) as Hx.
  pose proof (xorshift32_next_nonzero s Hr) as Hn.
  pose proof UINT32_MAX_pos as HM.
  rewrite random_double_eq. cbn [fst snd].
  exists (IZR (xorshift32_next s) / IZR UINT32_MAX).
  split; [reflexivity|]. split; [split|].
  - unfold Rdiv. apply Rmult_le_compat_r.
    + left. apply Rinv_0_lt_compat. exact HM.
    + apply IZR_le. lia.
  - apply (Rmult_le_reg_r (IZR UINT32_MAX)); [exact HM|].
    unfold Rdiv. rewrite Rmult_assoc, Rinv_l, Rmult_1_r, Rmult_1_l by lra.
    apply IZR_le. unfold UINT32_MAX. lia.
  - apply (seeded_step s Hs).
Qed.

Lemma normal_random_seeded (s : Z) :
  seeded s ->
  exists z : R,
    fst (normal_random s) = Fin z /\
    Rabs z <= sqrt (2 * ln (IZR UINT32_MAX)) /\
    seeded (snd (normal_random s)).
Proof.
  intros Hs.
  destruct (seeded_draw s Hs) as (u1 & Hu1 & [Hlo1 Hhi1] & Hs1).
  destruct (seeded_draw _ Hs1) as (u2 & Hu2 & _ & Hs2).
  pose proof UINT32_MAX_pos as HM.
  assert (Hp1 : 0 < u1).
  { apply (Rlt_le_trans _ (1 / IZR UINT32_MAX)); [|exact Hlo1].
    unfold Rdiv. rewrite Rmult_1_l. apply Rinv_0_lt_compat. exact HM. }
  assert (Hln0 : ln u1 <= 0) by (rewrite <- ln_1; apply ln_le_mono; lra).
  assert (HlnM : - ln (IZR UINT32_MAX) <= ln u1).
  { rewrite <- ln_Rinv by exact HM.
    apply ln_le_mono; [apply Rinv_0_lt_compat; exact HM|].
    unfold Rdiv in Hlo1. rewrite Rmult_1_l in Hlo1. exact Hlo1. }
  rewrite normal_random_eq, Hu1, Hu2. unfold box_muller.
  rewrite xlog_pos by exact Hp1. cbn [xmul].
  rewrite xsqrt_nonneg by lra. cbn [xmul xcos].
  exists (sqrt (-2 * ln u1) * cos (2 * M_PI * u2)).
  split; [reflexivity|]. split; [|exact Hs2].
  rewrite Rabs_mult.
  pose proof (COS_bound (2 * M_PI * u2)) as Hc.
  assert (Hca : Rabs (cos (2 * M_PI * u2)) <= 1) by (apply Rabs_le; lra).
  rewrite Rabs_right by (apply Rle_ge, sqrt_pos).
  apply (Rle_trans _ (sqrt (-2 * ln u1) * 1)).
  - apply Rmult_le_compat_l; [apply sqrt_pos | exact Hca].
  - rewrite Rmult_1_r. apply sqrt_le_1_alt. lra.
Qed.

(** From any state established by [rng_seed], [normal_random] returns a
    finite sample bounded by [sqrt (2 ln UINT32_MAX)] in absolute value
    (about 6.66), and leaves a reachable state. *)
Theorem normal_random_bounded (s : Z) (Hs : seeded s) :
  exists z : R,
    fst (normal_random s) = Fin z /\
    Rabs z <= sqrt (2 * ln (IZR UINT32_MAX)) /\
    seeded (snd (normal_random s)).
Proof. exact (normal_random_seeded s Hs). Qed.

Lemma seeded_123456 : seeded 123456%Z.
Proof. change 123456%Z with (snd (rng_seed 123456 0%Z)). apply seeded_seed. lia. Qed.

Lemma normal_random_bounded_witness :
  seeded 123456%Z /\
  exists z : R,
    fst (normal_random 123456%Z) = Fin z /\
    Rabs z <= sqrt (2 * ln (IZR UINT32_MAX)) /\
    seeded (snd (normal_random 123456%Z)).
Proof. split; [exact seeded_123456 | exact (normal_random_bounded 123456%Z seeded_123456)]. Defined.

Lemma simulate_gbm_fin (S0 r sigma T z : R) (s s' : Z) :
  0 <= T -> normal_random s = (Fin z, s') ->
  simulate_gbm (Fin S0) (Fin r) (Fin sigma) (Fin T) s =
  (Fin (S0 * exp ((r - 1 / 2 * sigma * sigma) * T + sigma * sqrt T * z)), s').
Proof.
  intros HT Hn. unfold simulate_gbm, bind, ret. rewrite Hn.
  rewrite xsqrt_nonneg by exact HT. reflexivity.
Qed.

(** ** Payoffs *)

(** On finite prices, [call_payoff] is [max (S - K) 0] and [put_payoff] is
    [max (K - S) 0]. *)
Theorem payoffs_are_max (S K : R) :
  call_payoff (Fin S) (Fin K) = Fin (Rmax (S - K) 0) /\
  put_payoff (Fin S) (Fin K) = Fin (Rmax (K - S) 0).
Proof.
  unfold call_payoff, put_payoff. rewrite !xgt_fin.
  split.
  - destruct (Rlt_dec K S); cbn [xsub xadd xneg]; f_equal.
    + rewrite Rmax_left by lra. ring.
    + rewrite Rmax_right by lra. reflexivity.
  - destruct (Rlt_dec S K); cbn [xsub xadd xneg]; f_equal.
    + rewrite Rmax_left by lra. ring.
    + rewrite Rmax_right by lra. reflexivity.
Qed.

(** For every pair of doubles, infinities and NaN included, [call_payoff]
    and [put_payoff] return a finite nonnegative number or +inf: never NaN,
    never negative. *)
Theorem payoffs_never_nan_or_negative (S K : xreal) :
  ((exists x, call_payoff S K = Fin x /\ 0 <= x) \/ call_payoff S K = PInf) /\
  ((exists x, put_payoff S K = Fin x /\ 0 <= x) \/ put_payoff S K = PInf).
Proof.
  assert (Hgen : forall A B : xreal,
            (exists x, (if xgt A B then xsub A B else Fin 0) = Fin x /\ 0 <= x) \/
            (if xgt A B then xsub A B else Fin 0) = PInf).
  { intros A B.
    destruct A as [a| | |]; destruct B as [b| | |]; cbn [xgt xsub xneg xadd];
      try (left; exists 0; split; [reflexivity | lra]);
      try (right; reflexivity).
    destruct (Rlt_dec b a).
    - left. exists (a + - b). split; [reflexivity | lra].
    - left. exists 0. split; [reflexivity | lra]. }
  split; [apply Hgen | apply Hgen].
Qed.

(** ** Monte Carlo estimator and Black-Scholes edge behaviour *)

(** [k] applications of [xorshift32] to the state. *)
Fixpoint xorshift32_iter (k : nat) (s : Z) : Z :=
  match k with
  | O => s
  | S k' => xorshift32_iter k' (xorshift32_next s)
  end.

Lemma simulate_gbm_state (S0 r sigma T : xreal) (s : Z) :
  snd (simulate_gbm S0 r sigma T s) = xorshift32_next (xorshift32_next s).
Proof.
  assert (Hn : snd (normal_random s) = xorshift32_next (xorshift32_next s)).
  { rewrite normal_random_eq, !random_double_eq. reflexivity. }
  unfold simulate_gbm, bind, ret. destruct (normal_random s) as [z s'].
  exact Hn.
Qed.

Lemma mc_loop_state (S0 K r sigma T : xreal) (i : nat) (acc : xreal) (s : Z) :
  snd (mc_loop S0 K r sigma T i acc s) = xorshift32_iter (2 * i) s.
Proof.
  revert acc s. induction i as [|i IH]; intros acc s; [reflexivity|].
  cbn [mc_loop]. unfold bind at 1.
  pose proof (simulate_gbm_state S0 r sigma T s) as Hs.
  destruct (simulate_gbm S0 r sigma T s) as [ST s1]. cbn [snd] in Hs. subst s1.
  rewrite IH. replace (2 * S i)%nat with (S (S (2 * i))) by lia. reflexivity.
Qed.

(** Whatever its arguments, [price_european_call_mc] advances the generator
    by exactly [2 * n_sim] [xorshift32] steps (two uniform draws per
    simulation). *)
Theorem mc_consumes_two_draws_per_simulation (S0 K r sigma T : xreal) (n_sim s : Z) :
  snd (price_european_call_mc S0 K r sigma T n_sim s) =
  xorshift32_iter (2 * Z.to_nat n_sim) s.
Proof.
  unfold price_european_call_mc, bind, ret.
  pose proof (mc_loop_state S0 K r sigma T (Z.to_nat n_sim) (Fin 0) s) as H.
  destruct (mc_loop S0 K r sigma T (Z.to_nat n_sim) (Fin 0) s) as [sum s'].
  exact H.
Qed.

Lemma simulate_gbm_seeded (S0 r sigma T : R) (s : Z) :
  0 <= T -> seeded s ->
  exists z s',
    simulate_gbm (Fin S0) (Fin r) (Fin sigma) (Fin T) s =
      (Fin (S0 * exp ((r - 1 / 2 * sigma * sigma) * T + sigma * sqrt T * z)), s') /\
    seeded s'.
Proof.
  intros HT Hs.
  destruct (normal_random_seeded s Hs) as (z & Hz & _ & Hs').
  destruct (normal_random s) as [Z s'] eqn:E. cbn [fst snd] in Hz, Hs'. subst Z.
  exists z, s'. split; [apply simulate_gbm_fin; assumption | exact Hs'].
Qed.

Lemma xmul_nan_r (a : xreal) : xmul a NaN = NaN.
Proof. destruct a; reflexivity. Qed.


Lemma xdiv_nan_r (a : xreal) : xdiv a NaN = NaN.
Proof. destruct a; reflexivity. Qed.

Lemma xsqrt_neg (T : R) : T < 0 -> xsqrt (Fin T) = NaN.
Proof. intros HT. simpl. destruct (Rlt_dec T 0); [reflexivity | lra]. Qed.

(** For a negative maturity, [price_european_call_bs] returns NaN whatever
    its other arguments ([sqrt T] is NaN). *)
Theorem bs_negative_maturity_nan (S0 K r sigma : xreal) (T : R) (HT : T < 0) :
  price_european_call_bs S0 K r sigma (Fin T) = NaN.
Proof.
  unfold price_european_call_bs. rewrite xsqrt_neg by exact HT.
  rewrite xmul_nan_r, xdiv_nan_r. cbn [xsub xneg xadd normal_cdf xdiv xerf].
  rewrite normal_cdf_nan, xmul_nan_r. reflexivity.
Qed.

Lemma bs_negative_maturity_nan_witness :
  -1 < 0 /\
  price_european_call_bs (Fin 100) (Fin 100) (Fin (5 / 100)) (Fin (2 / 10)) (Fin (-1)) = NaN.
Proof. split; [lra | apply bs_negative_maturity_nan; lra]. Defined.




(** ** Signs of simulated prices and of the Monte Carlo price *)

(** A double that is [+0.0], positive or +inf. *)
Definition nonneg_or_inf (a : xreal) : Prop :=
  (exists p, a = Fin p /\ 0 <= p) \/ a = PInf.

Lemma nonneg_or_inf_xadd (a b : xreal) :
  nonneg_or_inf a -> nonneg_or_inf b -> nonneg_or_inf (xadd a b).
Proof.
  intros [(x & -> & Hx) | ->] [(y & -> & Hy) | ->]; cbn [xadd];
    [left; exists (x + y); split; [reflexivity | lra] | right | right | right];
    reflexivity.
Qed.

Lemma nonneg_or_inf_call_payoff (S K : xreal) : nonneg_or_inf (call_payoff S K).
Proof.
  unfold call_payoff, nonneg_or_inf.
  destruct S as [a| | |]; destruct K as [b| | |]; cbn [xgt xsub xneg xadd];
    try (left; exists 0; split; [reflexivity | lra]);
    try (right; reflexivity).
  destruct (Rlt_dec b a).
  - left. exists (a + - b). split; [reflexivity | lra].
  - left. exists 0. split; [reflexivity | lra].
Qed.

Lemma nonneg_or_inf_mc_loop (S0 K r sigma T : xreal) (i : nat) (acc : xreal) (s : Z) :
  nonneg_or_inf acc -> nonneg_or_inf (fst (mc_loop S0 K r sigma T i acc s)).
Proof.
  revert acc s. induction i as [|i IH]; intros acc s Hacc; [exact Hacc|].
  cbn [mc_loop]. unfold bind at 1.
  destruct (simulate_gbm S0 r sigma T s) as [ST s1].
  apply IH, nonneg_or_inf_xadd; [exact Hacc | apply nonneg_or_inf_call_payoff].
Qed.

Lemma inf_of_sign_nonneg (x : R) :
  0 <= x -> nonneg_or_inf (inf_of_sign x true) \/ inf_of_sign x true = NaN.
Proof.
  intros Hx. unfold inf_of_sign.
  destruct (Req_dec_T x 0); [right; reflexivity|].
  destruct (Rlt_dec 0 x); [left; right; reflexivity | lra].
Qed.

Lemma nonneg_or_inf_xdiv (a : xreal) (n : R) :
  nonneg_or_inf a -> 0 <= n ->
  nonneg_or_inf (xdiv a (Fin n)) \/ xdiv a (Fin n) = NaN.
Proof.
  intros [(x & -> & Hx) | ->] Hn; cbn [xdiv].
  - destruct (Req_dec_T n 0); [apply inf_of_sign_nonneg; exact Hx|].
    left. left. exists (x / n). split; [reflexivity|].
    unfold Rdiv. apply Rmult_le_pos; [exact Hx | left; apply Rinv_0_lt_compat; lra].
  - destruct (Req_dec_T n 0); [left; right; reflexivity|].
    apply inf_of_sign_nonneg. exact Hn.
Qed.

Lemma nonneg_or_inf_xexp (a : xreal) :
  nonneg_or_inf (xexp a) \/ xexp a = NaN.
Proof.
  destruct a as [x| | |]; cbn [xexp].
  - left. left. exists (exp x). split; [reflexivity | left; apply exp_pos].
  - left. right. reflexivity.
  - left. left. exists 0. split; [reflexivity | lra].
  - right. reflexivity.
Qed.

Lemma nonneg_or_inf_xmul (a b : xreal) :
  nonneg_or_inf a \/ a = NaN -> nonneg_or_inf b \/ b = NaN ->
  nonneg_or_inf (xmul a b) \/ xmul a b = NaN.
Proof.
  intros [[(x & -> & Hx) | ->] | ->] [[(y & -> & Hy) | ->] | ->]; cbn [xmul];
    try (right; reflexivity);
    try (apply inf_of_sign_nonneg; assumption).
  - left. left. exists (x * y). split; [reflexivity | apply Rmult_le_pos; assumption].
  - left. right. reflexivity.
Qed.

(** For a nonnegative (or +inf) initial price and any other arguments,
    infinities and NaN included, [simulate_gbm] never returns a negative
    price or -inf: the result is [0] or positive, +inf, or NaN. *)
Theorem simulate_gbm_never_negative (S0 r sigma T : xreal) (s : Z)
  (HS0 : nonneg_or_inf S0) :
  nonneg_or_inf (fst (simulate_gbm S0 r sigma T s)) \/
  fst (simulate_gbm S0 r sigma T s) = NaN.
Proof.
  unfold simulate_gbm, bind, ret. destruct (normal_random s) as [Z s']. cbn [fst].
  apply nonneg_or_inf_xmul; [left; exact HS0 | apply nonneg_or_inf_xexp].
Qed.

Lemma simulate_gbm_never_negative_witness :
  nonneg_or_inf (Fin 100) /\
  (nonneg_or_inf (fst (simulate_gbm (Fin 100) (Fin (5 / 100)) (Fin (2 / 10)) (Fin 1) 123456%Z)) \/
   fst (simulate_gbm (Fin 100) (Fin (5 / 100)) (Fin (2 / 10)) (Fin 1) 123456%Z) = NaN).
Proof.
  assert (H : nonneg_or_inf (Fin 100)) by (left; exists 100; split; [reflexivity | lra]).
  split; [exact H | exact (simulate_gbm_never_negative _ _ _ _ 123456%Z H)].
Defined.

(** Whatever its arguments and the generator state, [price_european_call_mc]
    never returns a negative price or -inf: the sum of payoffs is [0],
    positive or +inf, and the division by [n_sim] and the discounting keep
    it so, or give NaN ([n_sim = 0], [0 * inf], a NaN argument). *)
Theorem mc_price_never_negative (S0 K r sigma T : xreal) (n_sim s : Z) :
  nonneg_or_inf (fst (price_european_call_mc S0 K r sigma T n_sim s)) \/
  fst (price_european_call_mc S0 K r sigma T n_sim s) = NaN.
Proof.
  unfold price_european_call_mc, bind, ret.
  pose proof (nonneg_or_inf_mc_loop S0 K r sigma T (Z.to_nat n_sim) (Fin 0) s) as H.
  destruct (mc_loop S0 K r sigma T (Z.to_nat n_sim) (Fin 0) s) as [sum s'] eqn:E.
  cbn [fst] in H |- *.
  apply nonneg_or_inf_xmul; [|apply nonneg_or_inf_xexp].
  destruct (Z_lt_le_dec n_sim 0) as [Hneg|Hnn].
  - (* no iteration: the sum is 0 and 0 / n_sim is 0 *)
    replace (Z.to_nat n_sim) with 0%nat in E by (destruct n_sim; [lia | lia | reflexivity]). cbn [mc_loop] in E. unfold ret in E.
    injection E as <- _.
    assert (Hn : IZR n_sim <> 0) by (apply not_0_IZR; lia).
    rewrite xdiv_fin by exact Hn. replace (0 / IZR n_sim) with 0 by (field; exact Hn).
    left. left. exists 0. split; [reflexivity | lra].
  - apply nonneg_or_inf_xdiv; [apply H; left; exists 0; split; [reflexivity | lra]|].
    apply IZR_le. exact Hnn.
Qed.

(** With zero volatility, from states established by [rng_seed] (where the
    normal draw is finite), [simulate_gbm] returns the same terminal price
    whatever the generator state: the draw is multiplied by
    [sigma * sqrt T = 0]. *)
Theorem simulate_gbm_zero_vol_state_independent (S0 r T : R) (s s' : Z)
  (HT : 0 <= T) (Hs : seeded s) (Hs' : seeded s') :
  fst (simulate_gbm (Fin S0) (Fin r) (Fin 0) (Fin T) s) =
  fst (simulate_gbm (Fin S0) (Fin r) (Fin 0) (Fin T) s').
Proof.
  destruct (simulate_gbm_seeded S0 r 0 T s HT Hs) as (z & s1 & E & _).
  destruct (simulate_gbm_seeded S0 r 0 T s' HT Hs') as (z' & s1' & E' & _).
  rewrite E, E'. cbn [fst]. do 3 f_equal. ring.
Qed.

Lemma seeded_42 : seeded 42%Z.
Proof. change 42%Z with (snd (rng_seed 42 0%Z)). apply seeded_seed. lia. Qed.

Lemma simulate_gbm_zero_vol_state_independent_witness :
  0 <= 1 /\ seeded 123456%Z /\ seeded 42%Z /\
  fst (simulate_gbm (Fin 100) (Fin (5 / 100)) (Fin 0) (Fin 1) 123456%Z) =
  fst (simulate_gbm (Fin 100) (Fin (5 / 100)) (Fin 0) (Fin 1) 42%Z).
Proof.
  split; [lra|]. split; [exact seeded_123456|]. split; [exact seeded_42|].
  apply simulate_gbm_zero_vol_state_independent; [lra | exact seeded_123456 | exact seeded_42].
Defined.
